(** * Pyfuncs: [range] and [zip] (pyfuncs.hh)

    A shallow embedding of the two iterator adaptors of pyfuncs.hh and the
    properties their description states about them.

    Conventions of the embedding:
    - [std::size_t] is a 64-bit unsigned integer: a [Z] in [0, 2^64), with
      the wrap-around of [++] written out ([wrap]);
    - a computation ends in an [outcome]: a value, the [abort()] of a failed
      [assert], undefined behaviour, or an exhausted loop budget;
    - member functions that are not [const] thread the object (for [zip],
      the store of objects) through the call, so that "does not mutate" is
      a statement about the returned state and not a property of a type;
    - the range-based [for] statement is the loop
      [for (it = r.begin(), last = r.end(); it != last; ++it) yield *it]. *)

From stdpp Require Import base numbers option list gmap.

Local Open Scope Z_scope.

(** ** Outcomes and object-passing computations *)

Inductive outcome (A : Type) : Type :=
| Ok (a : A)     (* normal completion *)
| Abort          (* a failed assert: abort(), no exception is thrown *)
| Undefined      (* undefined behaviour: dangling object, index out of range *)
| OutOfFuel.     (* the loop budget of the model ran out *)

Arguments Ok {A} a.
Arguments Abort {A}.
Arguments Undefined {A}.
Arguments OutOfFuel {A}.

Global Instance outcome_ret : MRet outcome := λ A a, Ok a.

Global Instance outcome_bind : MBind outcome := λ A B f m,
  match m with
  | Ok a => f a
  | Abort => Abort
  | Undefined => Undefined
  | OutOfFuel => OutOfFuel
  end.

(** <assert.h>: [assert(b)] does nothing when [b] holds and aborts
    otherwise (the header never defines NDEBUG). *)
Definition assert (b : bool) : outcome unit :=
  if b then Ok () else Abort.

(** A member function of an object of type [S] returning an [A]. *)
Definition method (S A : Type) : Type := S → outcome (A * S).

Global Instance method_ret {S} : MRet (method S) := λ A a s, Ok (a, s).

Global Instance method_bind {S} : MBind (method S) := λ A B f m s,
  match m s with
  | Ok (a, s') => f a s'
  | Abort => Abort
  | Undefined => Undefined
  | OutOfFuel => OutOfFuel
  end.

Definition lift {S A} (o : outcome A) : method S A := λ s,
  match o with
  | Ok a => Ok (a, s)
  | Abort => Abort
  | Undefined => Undefined
  | OutOfFuel => OutOfFuel
  end.

(** ** std::size_t *)

Definition SIZE_BITS : Z := 64.
Definition SIZE_MOD : Z := 2 ^ SIZE_BITS.
Definition SIZE_MAX : Z := SIZE_MOD - 1.

(** Unsigned arithmetic is modulo [2 ^ SIZE_BITS]. *)
Definition wrap (z : Z) : Z := z `mod` SIZE_MOD.

Definition is_size_t (z : Z) : Prop := 0 ≤ z ≤ SIZE_MAX.

(** ** class range *)

Module range.

Module Iterator.

Record t : Type := mk { i_ : Z; max_ : Z }.

(** Iterator(std::size_t max) : i_(0), max_(max) *)
Definition ctor1 (max : Z) : t := mk 0 max.

(** Iterator(std::size_t i, std::size_t max) : i_(i), max_(max) *)
Definition ctor (i max : Z) : t := mk i max.

(** bool operator!=(const Iterator& iter) { return i_ != iter.i_; } *)
Definition op_ne (this iter : t) : bool := negb (i_ this =? i_ iter).

(** std::size_t operator*() { return i_; } *)
Definition op_deref (this : t) : Z := i_ this.

(** Iterator& operator++() { i_++; return *this; } *)
Definition op_incr (this : t) : t := mk (wrap (i_ this + 1)) (max_ this).

End Iterator.

Record t : Type := mk { i_ : Z; max_ : Z }.

(** range(const std::size_t i, const std::size_t max) : i_(i), max_(max)
    { assert(i <= max); } *)
Definition ctor (i max : Z) : outcome t :=
  let this := mk i max in
  _ ← assert (i <=? max);
  Ok this.

(** range(const std::size_t max) : range(0, max) {} *)
Definition ctor1 (max : Z) : outcome t := ctor 0 max.

(** Iterator begin() { return Iterator(i_, max_); } *)
Definition begin : method t Iterator.t := λ this,
  Ok (Iterator.ctor (i_ this) (max_ this), this).

(** Iterator end() { return Iterator(max_, max_); } *)
Definition end_ : method t Iterator.t := λ this,
  Ok (Iterator.ctor (max_ this) (max_ this), this).

(** The loop of a range-based for statement, collecting the values the
    loop variable takes. *)
Fixpoint for_loop (fuel : nat) (it last : Iterator.t) : outcome (list Z) :=
  match fuel with
  | O => OutOfFuel
  | S fuel' =>
      if Iterator.op_ne it last then
        xs ← for_loop fuel' (Iterator.op_incr it) last;
        Ok (Iterator.op_deref it :: xs)
      else Ok []
  end.

(** for (const auto i : r) ... *)
Definition iterate (fuel : nat) : method t (list Z) :=
  it ← begin;
  last ← end_;
  lift (for_loop fuel it last).

(** for (const auto i : range(i, max)) ... *)
Definition for_range (fuel : nat) (i max : Z) : outcome (list Z * t) :=
  r ← ctor i max;
  iterate fuel r.

End range.

(** ** Random-access containers and tuples *)

(** What [zip] asks of each of its arguments: a [value_type], [size()]
    (through [min_size]) and [operator[]].  Indexing outside the container
    is undefined behaviour: [subscript] answers [None] there. *)
Record container : Type := Container {
  carrier :> Type;
  value_type : Type;
  size : carrier → Z;
  subscript : carrier → Z → option value_type;
}.

Arguments size {_} _.
Arguments subscript {_} _ _.

(** std::vector<X> *)
Definition vector (X : Type) : container := {|
  carrier := list X;
  value_type := X;
  size := λ v, Z.of_nat (length v);
  subscript := λ v i, if 0 <=? i then v !! Z.to_nat i else None;
|}.

(** [std::tuple<F Args...>]: the components in declaration order. *)
Fixpoint tuple (F : container → Type) (Args : list container) : Type :=
  match Args with
  | [] => unit
  | A :: As => (F A * tuple F As)%type
  end.

(** std::make_tuple(x) *)
Definition make_tuple {F} {A : container} (x : F A) : tuple F [A] := (x, ()).

(** std::tuple_cat(t, u) *)
Fixpoint tuple_cat {F} {As Bs : list container} :
    tuple F As → tuple F Bs → tuple F (As ++ Bs) :=
  match As with
  | [] => λ _ u, u
  | A :: As' => λ t u, (t.1, tuple_cat t.2 u)
  end.

(** Modelled from the spec: [min_size] is declared in misc.hh, which is not
    among the sources.  The description of [zip] says the limit is computed
    once "as the minimum of all container lengths". *)
Fixpoint min_size (A : container) (As : list container) :
    tuple carrier (A :: As) → Z :=
  match As with
  | [] => λ args, size args.1
  | B :: Bs => λ args, Z.min (size args.1) (min_size B Bs args.2)
  end.

(** ** template <typename ...Args> class zip *)

Module zip.

(** Objects live in a store; a reference is the address of its referent. *)
Abbreviation addr := positive (only parsing).

Module Iterator.

(** [arrays_] is the reference member [const array_t&]: the address of
    the reference tuple of the [zip] the cursor was made from. *)
Record t : Type := mk { arrays_ : addr; i_ : Z }.

(** Iterator(const array_t& arrays) : arrays_(arrays), i_(0) *)
Definition ctor1 (arrays : addr) : t := mk arrays 0.

(** Iterator(const array_t& arrays, const std::size_t i) *)
Definition ctor (arrays : addr) (i : Z) : t := mk arrays i.

(** bool operator!=(const Iterator& iter)
    { return i_ != iter.i_ || &arrays_ != &iter.arrays_; } *)
Definition op_ne (this iter : t) : bool :=
  negb (i_ this =? i_ iter) || negb (arrays_ this =? arrays_ iter)%positive.

(** Iterator& operator++() { i_++; return *this; } *)
Definition op_incr (this : t) : t := mk (arrays_ this) (wrap (i_ this + 1)).

End Iterator.

Section zip.

(** [Args...] is [A, As...]: the static_assert of [get] rules out an
    empty pack, and [N = sizeof...(Args)]. *)
Context {A : container} {As : list container}.

(** using array_t = std::tuple<const Args&...>;  the containers are
    read only, a reference to one is modelled by its value. *)
Definition array_t : Type := tuple carrier (A :: As).

(** using tuple_t = std::tuple<typename Args::value_type...>; *)
Definition tuple_t : Type := tuple value_type (A :: As).

(** The data members [arrays_] and [max_]. *)
Record t : Type := mk { arrays_ : array_t; max_ : Z }.

(** The address of the member [arrays_] of the object at [this]. *)
Definition addr_of_arrays_ (this : addr) : addr := this.

(** zip(const Args&... args) : arrays_(args...), max_(min_size(args...)) *)
Definition ctor (this : addr) (args : array_t) : method (gmap addr t) unit :=
  λ σ, Ok ((), <[this := mk args (min_size A As args)]> σ).

(** auto begin() { return Iterator<sizeof...(Args)>(arrays_, 0); } *)
Definition begin (this : addr) : method (gmap addr t) Iterator.t := λ σ,
  match σ !! this with
  | Some _ => Ok (Iterator.ctor (addr_of_arrays_ this) 0, σ)
  | None => Undefined
  end.

(** auto end() { return Iterator<sizeof...(Args)>(arrays_, max_); } *)
Definition end_ (this : addr) : method (gmap addr t) Iterator.t := λ σ,
  match σ !! this with
  | Some z => Ok (Iterator.ctor (addr_of_arrays_ this) (max_ z), σ)
  | None => Undefined
  end.

End zip.

Arguments t : clear implicits.

(** The members [get] and [operator*] of [zip::Iterator] follow the data
    members of [zip], which they read through the reference [arrays_]. *)

(** template <std::size_t M> auto get(): the components [M .. N-1] of the
    result, read from the components [M .. N-1] of [arrays_]; [B, Bs...]
    are the types at those positions, and [M == N - 1] when [Bs] is empty. *)
Fixpoint get (B : container) (Bs : list container) :
    tuple carrier (B :: Bs) → Z → option (tuple value_type (B :: Bs)) :=
  match Bs with
  | [] => λ arrays i,
      x ← subscript arrays.1 i;
      Some (make_tuple (F := value_type) x)
  | C :: Cs => λ arrays i,
      x ← subscript arrays.1 i;
      rest ← get C Cs arrays.2 i;
      Some (tuple_cat (make_tuple (F := value_type) x) rest)
  end.

Section iteration.

Context {A : container} {As : list container}.

(** tuple_t operator*() { return get<0>(); } *)
Definition op_deref (this : Iterator.t) : method (gmap addr (t A As)) tuple_t :=
  λ σ,
  match σ !! Iterator.arrays_ this with
  | Some z =>
      match get A As (arrays_ z) (Iterator.i_ this) with
      | Some x => Ok (x, σ)
      | None => Undefined
      end
  | None => Undefined
  end.

(** The loop of a range-based for statement, collecting the tuples the
    loop variable takes. *)
Fixpoint for_loop (fuel : nat) (it last : Iterator.t) :
    method (gmap addr (t A As)) (list (@tuple_t A As)) :=
  match fuel with
  | O => λ _, OutOfFuel
  | S fuel' =>
      if Iterator.op_ne it last then
        x ← op_deref it;
        xs ← for_loop fuel' (Iterator.op_incr it) last;
        mret (x :: xs)
      else mret []
  end.

(** for (const auto& [a, b, ...] : z) ... *)
Definition iterate (fuel : nat) (this : addr) :
    method (gmap addr (t A As)) (list (@tuple_t A As)) :=
  it ← begin this;
  last ← end_ this;
  for_loop fuel it last.

(** for (const auto& [a, b, ...] : zip(v0, v1, ...)) ... with the
    temporary placed at [this]. *)
Definition for_zip (fuel : nat) (this : addr) (args : @array_t A As) :
    method (gmap addr (t A As)) (list (@tuple_t A As)) :=
  _ ← ctor this args;
  iterate fuel this.

End iteration.

End zip.

(** ** Vocabulary of the statements *)

(** The invariant [range]'s constructor establishes on an instance. *)
Definition range_valid (r : range.t) : Prop :=
  is_size_t (range.i_ r) ∧ is_size_t (range.max_ r) ∧ range.i_ r ≤ range.max_ r.

(** The lengths [L_0, ..., L_{N-1}] of a pack of containers. *)
Fixpoint sizes (Args : list container) : tuple carrier Args → list Z :=
  match Args with
  | [] => λ _, []
  | A :: As => λ args, size args.1 :: sizes As args.2
  end.

(** A container whose length fits [std::size_t] and that answers every
    index below its length. *)
Definition random_access {A : container} (c : A) : Prop :=
  is_size_t (size c) ∧ ∀ i, 0 ≤ i < size c → is_Some (subscript c i).

Fixpoint all_random_access (Args : list container) : tuple carrier Args → Prop :=
  match Args with
  | [] => λ _, True
  | A :: As => λ args, random_access args.1 ∧ all_random_access As args.2
  end.

(** [x = (c_0[i], ..., c_{N-1}[i])], component by component in declaration
    order. *)
Fixpoint zipped_at (Args : list container) :
    tuple carrier Args → Z → tuple value_type Args → Prop :=
  match Args with
  | [] => λ _ _ _, True
  | A :: As => λ args i x,
      subscript args.1 i = Some x.1 ∧ zipped_at As args.2 i x.2
  end.

(** The cursors one can obtain from the [zip] at [this]: those [begin()]
    and [end()] return, and those reached from them by [++]. *)
Inductive cursor_of {A As} (σ : gmap positive (zip.t A As)) (this : positive) :
    zip.Iterator.t → Prop :=
| cursor_begin it σ' : zip.begin this σ = Ok (it, σ') → cursor_of σ this it
| cursor_end it σ' : zip.end_ this σ = Ok (it, σ') → cursor_of σ this it
| cursor_incr it : cursor_of σ this it → cursor_of σ this (zip.Iterator.op_incr it).

(** Two complete passes over one instance, one after the other, and
    [begin()] and [end()] requested twice. *)
Definition range_two_passes (fuel : nat) : method range.t (list Z * list Z) :=
  out1 ← range.iterate fuel;
  out2 ← range.iterate fuel;
  mret (out1, out2).

Definition range_cursors_twice :
    method range.t ((range.Iterator.t * range.Iterator.t)
                    * (range.Iterator.t * range.Iterator.t)) :=
  first1 ← range.begin;
  last1 ← range.end_;
  first2 ← range.begin;
  last2 ← range.end_;
  mret ((first1, last1), (first2, last2)).

Definition zip_two_passes {A As} (fuel : nat) (this : positive) :
    method (gmap positive (zip.t A As))
           (list (@zip.tuple_t A As) * list (@zip.tuple_t A As)) :=
  out1 ← zip.iterate fuel this;
  out2 ← zip.iterate fuel this;
  mret (out1, out2).

Definition zip_cursors_twice {A As} (this : positive) :
    method (gmap positive (zip.t A As))
           ((zip.Iterator.t * zip.Iterator.t)
            * (zip.Iterator.t * zip.Iterator.t)) :=
  first1 ← zip.begin this;
  last1 ← zip.end_ this;
  first2 ← zip.begin this;
  last2 ← zip.end_ this;
  mret ((first1, last1), (first2, last2)).

(** A container that answers exactly the indices below its length, as
    [operator[]] of [std::vector] does without undefined behaviour. *)
Definition exact_bounds {A : container} (c : A) : Prop :=
  ∀ i, is_Some (subscript c i) ↔ 0 ≤ i < size c.

Fixpoint all_exact_bounds (Args : list container) : tuple carrier Args → Prop :=
  match Args with
  | [] => λ _, True
  | A :: As => λ args, exact_bounds args.1 ∧ all_exact_bounds As args.2
  end.

(** * Properties *)

(** ** std::size_t *)

Lemma SIZE_MAX_eq : SIZE_MAX = 18446744073709551615.
Proof. reflexivity. Qed.

Lemma SIZE_MOD_eq : SIZE_MOD = SIZE_MAX + 1.
Proof. reflexivity. Qed.

Lemma wrap_id z : is_size_t z → wrap z = z.
Proof.
  intros [Hlo Hhi]. unfold wrap. rewrite SIZE_MOD_eq.
  apply Z.mod_small. lia.
Qed.

Lemma wrap_succ i : 0 ≤ i < SIZE_MAX → wrap (i + 1) = i + 1.
Proof. intros H. apply wrap_id. unfold is_size_t. lia. Qed.

Lemma wrap_SIZE_MAX : wrap (SIZE_MAX + 1) = 0.
Proof. reflexivity. Qed.

Lemma wrap_is_size_t z : is_size_t (wrap z).
Proof.
  unfold wrap, is_size_t. rewrite SIZE_MOD_eq.
  pose proof (Z.mod_pos_bound z (SIZE_MAX + 1)). rewrite SIZE_MAX_eq in *. lia.
Qed.

Global Opaque SIZE_MAX SIZE_MOD.

Ltac size_t := unfold is_size_t; rewrite ?SIZE_MAX_eq; lia.

(** ** The monads *)

Lemma lift_Ok {S A} (a : A) (s : S) : lift (Ok a) s = Ok (a, s).
Proof. reflexivity. Qed.

Lemma method_bind_Ok {S A B} (m : method S A) (f : A → method S B) s a s' :
  m s = Ok (a, s') → (m ≫= f) s = f a s'.
Proof. intros H. unfold mbind, method_bind. by rewrite H. Qed.

(** ** class range *)

Section range_facts.

Import range.

Lemma range_op_ne_true a b :
  Iterator.i_ a ≠ Iterator.i_ b → Iterator.op_ne a b = true.
Proof. intros H. unfold Iterator.op_ne. by apply negb_true_iff, Z.eqb_neq. Qed.

Lemma range_op_ne_false a b :
  Iterator.i_ a = Iterator.i_ b → Iterator.op_ne a b = false.
Proof. intros H. unfold Iterator.op_ne. by apply negb_false_iff, Z.eqb_eq. Qed.

Lemma range_ctor_Ok i max : i ≤ max → ctor i max = Ok (mk i max).
Proof.
  intros H. unfold ctor. by rewrite (proj2 (Z.leb_le i max) H).
Qed.

Lemma range_ctor_Abort i max : max < i → ctor i max = Abort.
Proof.
  intros H. unfold ctor. by rewrite (proj2 (Z.leb_gt i max) H).
Qed.

Lemma range_ctor_valid i max r :
  is_size_t i → is_size_t max → ctor i max = Ok r → r = mk i max ∧ range_valid r.
Proof.
  intros Hi Hmax. unfold ctor. destruct (Z.leb_spec i max) as [Hle|Hgt]; simpl.
  - intros [= <-]. unfold range_valid. simpl. tauto.
  - discriminate.
Qed.

(** The loop from position [i] to position [i + n] runs [n] times and
    sees [i, i + 1, ..., i + n - 1]. *)
Lemma range_for_loop_seqZ (n : nat) : ∀ (fuel : nat) (i m m' : Z),
  0 ≤ i → i + Z.of_nat n ≤ SIZE_MAX → (n < fuel)%nat →
  for_loop fuel (Iterator.mk i m) (Iterator.mk (i + Z.of_nat n) m')
  = Ok (seqZ i (Z.of_nat n)).
Proof.
  induction n as [|n IH]; intros fuel i m m' Hi Hn Hfuel.
  - destruct fuel as [|fuel]; [lia|]. simpl.
    rewrite range_op_ne_false by (simpl; lia). reflexivity.
  - destruct fuel as [|fuel]; [lia|]. simpl.
    rewrite range_op_ne_true by (simpl; lia).
    unfold Iterator.op_incr, Iterator.op_deref. simpl.
    rewrite wrap_succ by lia.
    replace (i + Z.of_nat (S n)) with (i + 1 + Z.of_nat n) by lia.
    rewrite IH by lia. simpl.
    rewrite (seqZ_cons i) by lia. do 3 f_equal; lia.
Qed.

Lemma range_iterate_seqZ (r : t) (fuel : nat) :
  range_valid r → (Z.to_nat (max_ r - i_ r) < fuel)%nat →
  iterate fuel r = Ok (seqZ (i_ r) (max_ r - i_ r), r).
Proof.
  intros (Hi & Hmax & Hle) Hfuel. unfold iterate.
  rewrite (method_bind_Ok _ _ r (Iterator.ctor (i_ r) (max_ r)) r) by done.
  rewrite (method_bind_Ok _ _ r (Iterator.ctor (max_ r) (max_ r)) r) by done.
  unfold Iterator.ctor.
  replace (max_ r) with (i_ r + Z.of_nat (Z.to_nat (max_ r - i_ r))) at 2 by lia.
  rewrite range_for_loop_seqZ; [| unfold is_size_t in *; lia ..].
  rewrite lift_Ok. do 3 f_equal. lia.
Qed.

End range_facts.

(** C1.  For unsigned [start <= stop], the loop over [range(start, stop)]
    completes (given a loop budget above [stop - start]) and yields
    [start, start + 1, ..., stop - 1] in that order, in exactly
    [stop - start] iterations; [range(n, n)] yields nothing. *)
Theorem range_yields_start_to_end (start stop : Z) (fuel : nat) :
  is_size_t start → is_size_t stop → start ≤ stop →
  (Z.to_nat (stop - start) < fuel)%nat →
  ∃ out r,
    range.for_range fuel start stop = Ok (out, r) ∧
    out = seqZ start (stop - start) ∧
    Z.of_nat (length out) = stop - start ∧
    (∀ k, 0 ≤ k < stop - start → out !! Z.to_nat k = Some (start + k)) ∧
    (start = stop → out = []).
Proof.
  intros Hstart Hstop Hle Hfuel.
  exists (seqZ start (stop - start)), (range.mk start stop).
  split; [|split; [done|split; [|split]]].
  - unfold range.for_range. rewrite range_ctor_Ok by done. simpl.
    by apply (range_iterate_seqZ (range.mk start stop)).
  - rewrite length_seqZ. lia.
  - intros k Hk. apply lookup_seqZ. lia.
  - intros ->. rewrite Z.sub_diag. reflexivity.
Qed.

Lemma range_yields_start_to_end_witness :
  ∃ out r,
    range.for_range 4 2 5 = Ok (out, r) ∧
    out = seqZ 2 (5 - 2) ∧
    Z.of_nat (length out) = 5 - 2 ∧
    (∀ k, 0 ≤ k < 5 - 2 → out !! Z.to_nat k = Some (2 + k)) ∧
    (2 = 5 → out = []).
Proof.
  apply (range_yields_start_to_end 2 5 4); [size_t | size_t | lia | simpl; lia].
Defined.

Example range_2_5 : range.for_range 4 2 5 = Ok ([2; 3; 4], range.mk 2 5).
Proof. reflexivity. Qed.

Example range_0_0 : range.for_range 1 0 0 = Ok ([], range.mk 0 0).
Proof. reflexivity. Qed.

(** C3.  With [stop < start] the constructor's assert fails: construction
    ends in [abort()] (not an exception, not a clamped instance), and a
    loop over [range(start, stop)] aborts before its first iteration,
    whatever its budget. *)
Theorem range_ctor_rejects_start_above_end (start stop : Z) :
  stop < start →
  range.ctor start stop = Abort ∧
  (∀ r, range.ctor start stop ≠ Ok r) ∧
  (∀ fuel, range.for_range fuel start stop = Abort).
Proof.
  intros Hlt. pose proof (range_ctor_Abort start stop Hlt) as Hctor.
  split; [done|split].
  - intros r. rewrite Hctor. discriminate.
  - intros fuel. unfold range.for_range. by rewrite Hctor.
Qed.

Lemma range_ctor_rejects_start_above_end_witness :
  range.ctor 5 2 = Abort ∧
  (∀ r, range.ctor 5 2 ≠ Ok r) ∧
  (∀ fuel, range.for_range fuel 5 2 = Abort).
Proof. apply (range_ctor_rejects_start_above_end 5 2). lia. Defined.

(** C4.  Two [range] cursors compare unequal exactly when their positions
    differ; the bounds they carry (hence the instances they come from) do
    not enter the comparison. *)
Theorem range_cursor_ne_iff_positions_differ (a b : range.Iterator.t) :
  (range.Iterator.op_ne a b = true ↔ range.Iterator.i_ a ≠ range.Iterator.i_ b) ∧
  (∀ m m' : Z,
     range.Iterator.op_ne (range.Iterator.mk (range.Iterator.i_ a) m)
                          (range.Iterator.mk (range.Iterator.i_ b) m')
     = range.Iterator.op_ne a b).
Proof.
  split; [|done].
  unfold range.Iterator.op_ne. rewrite negb_true_iff. apply Z.eqb_neq.
Qed.

Example range_cursors_of_two_instances :
  range.Iterator.op_ne (range.Iterator.mk 3 5) (range.Iterator.mk 3 9) = false.
Proof. reflexivity. Qed.

(** C7 as stated fails at the largest position: the cursor [end()] of
    [range(SIZE_MAX)] is at [SIZE_MAX], and advancing it gives 0. *)
Lemma range_incr_wraps_at_SIZE_MAX :
  ∃ r last,
    range.ctor1 SIZE_MAX = Ok r ∧
    range.end_ r = Ok (last, r) ∧
    range.Iterator.i_ last = SIZE_MAX ∧
    range.Iterator.i_ (range.Iterator.op_incr last) = 0 ∧
    range.Iterator.i_ (range.Iterator.op_incr last) ≠ range.Iterator.i_ last + 1.
Proof.
  exists (range.mk 0 SIZE_MAX), (range.Iterator.mk SIZE_MAX SIZE_MAX).
  split; [|split; [|split; [|split]]].
  - unfold range.ctor1. apply range_ctor_Ok. rewrite SIZE_MAX_eq. lia.
  - reflexivity.
  - reflexivity.
  - simpl. apply wrap_SIZE_MAX.
  - simpl. rewrite wrap_SIZE_MAX, SIZE_MAX_eq. lia.
Qed.

(** C7, amended.  Advancing a [range] cursor at a position [p] below
    [SIZE_MAX] moves it to [p + 1] and leaves its bound alone, whether or
    not [p] is below the bound: the operation checks nothing. *)
Theorem range_incr_adds_one (it : range.Iterator.t) :
  0 ≤ range.Iterator.i_ it < SIZE_MAX →
  range.Iterator.i_ (range.Iterator.op_incr it) = range.Iterator.i_ it + 1 ∧
  range.Iterator.max_ (range.Iterator.op_incr it) = range.Iterator.max_ it.
Proof.
  intros Hp. split; [|done]. simpl. by apply wrap_succ.
Qed.

Lemma range_incr_adds_one_witness :
  range.Iterator.i_ (range.Iterator.op_incr (range.Iterator.mk 7 3)) = 7 + 1 ∧
  range.Iterator.max_ (range.Iterator.op_incr (range.Iterator.mk 7 3)) = 3.
Proof.
  apply (range_incr_adds_one (range.Iterator.mk 7 3)).
  simpl. rewrite SIZE_MAX_eq. lia.
Defined.

(** C8.  Dereferencing a [range] cursor is a total function of the cursor
    and returns its position, unchecked; for the cursor [end()] returns
    that is the bound of the instance, a value the loop over a valid
    instance never yields. *)
Theorem range_deref_returns_position
    (it : range.Iterator.t) (r : range.t) (fuel : nat) :
  range.Iterator.op_deref it = range.Iterator.i_ it ∧
  (∃ last, range.end_ r = Ok (last, r) ∧
           range.Iterator.op_deref last = range.max_ r) ∧
  (range_valid r → (Z.to_nat (range.max_ r - range.i_ r) < fuel)%nat →
   ∃ out, range.iterate fuel r = Ok (out, r) ∧ range.max_ r ∉ out).
Proof.
  split; [done|split].
  - by exists (range.Iterator.mk (range.max_ r) (range.max_ r)).
  - intros Hvalid Hfuel. eexists. split.
    + by apply range_iterate_seqZ.
    + rewrite elem_of_seqZ. lia.
Qed.

Lemma range_deref_returns_position_witness :
  range.Iterator.op_deref (range.Iterator.mk 5 5) = 5 ∧
  (∃ last, range.end_ (range.mk 2 5) = Ok (last, range.mk 2 5) ∧
           range.Iterator.op_deref last = 5) ∧
  (∃ out, range.iterate 4 (range.mk 2 5) = Ok (out, range.mk 2 5) ∧ 5 ∉ out).
Proof.
  destruct (range_deref_returns_position
              (range.Iterator.mk 5 5) (range.mk 2 5) 4) as (Hderef & Hend & Hout).
  split; [exact Hderef|split; [exact Hend|]].
  apply Hout.
  - unfold range_valid. simpl. split; [size_t|split; [size_t|lia]].
  - simpl. lia.
Defined.

(** ** Containers and [min_size] *)

Lemma vector_random_access {X} (v : list X) :
  Z.of_nat (length v) ≤ SIZE_MAX → random_access (A := vector X) v.
Proof.
  intros Hlen. split; simpl.
  - unfold is_size_t. lia.
  - intros i Hi. destruct (Z.leb_spec 0 i) as [_|]; [|lia].
    apply lookup_lt_is_Some. lia.
Qed.

Lemma min_size_le (A : container) (As : list container) : ∀ args,
  Forall (λ L, min_size A As args ≤ L) (sizes (A :: As) args).
Proof.
  revert A. induction As as [|B Bs IH]; intros A args.
  - repeat constructor. reflexivity.
  - change (sizes (A :: B :: Bs) args)
      with (size args.1 :: sizes (B :: Bs) args.2).
    change (min_size A (B :: Bs) args)
      with (Z.min (size args.1) (min_size B Bs args.2)).
    constructor; [lia|].
    eapply Forall_impl; [apply IH|]. simpl. intros L HL. lia.
Qed.

Lemma min_size_elem_of (A : container) (As : list container) : ∀ args,
  min_size A As args ∈ sizes (A :: As) args.
Proof.
  revert A. induction As as [|B Bs IH]; intros A args.
  - simpl. apply list_elem_of_here.
  - change (sizes (A :: B :: Bs) args)
      with (size args.1 :: sizes (B :: Bs) args.2).
    change (min_size A (B :: Bs) args)
      with (Z.min (size args.1) (min_size B Bs args.2)).
    destruct (Z.min_spec (size args.1) (min_size B Bs args.2))
      as [[_ ->]|[_ ->]].
    + apply list_elem_of_here.
    + apply list_elem_of_further, IH.
Qed.

Lemma min_size_is_size_t (A : container) (As : list container) : ∀ args,
  all_random_access (A :: As) args → is_size_t (min_size A As args).
Proof.
  revert A. induction As as [|B Bs IH]; intros A args [[Hsz _] Hrest].
  - exact Hsz.
  - specialize (IH B args.2 Hrest).
    change (min_size A (B :: Bs) args)
      with (Z.min (size args.1) (min_size B Bs args.2)).
    unfold is_size_t in *. lia.
Qed.

(** ** zip::Iterator::get *)

Lemma get_zipped_at (B : container) (Bs : list container) : ∀ arrays i x,
  zip.get B Bs arrays i = Some x → zipped_at (B :: Bs) arrays i x.
Proof.
  revert B. induction Bs as [|C Cs IH]; intros B arrays i x.
  - simpl. destruct (subscript arrays.1 i) as [y|]; simpl; [|done].
    intros [= <-]. done.
  - change (zip.get B (C :: Cs) arrays i)
      with (y ← subscript arrays.1 i;
            rest ← zip.get C Cs arrays.2 i;
            Some (tuple_cat (make_tuple (F := value_type) y) rest)).
    destruct (subscript arrays.1 i) as [y|] eqn:Hy; simpl; [|done].
    destruct (zip.get C Cs arrays.2 i) as [rest|] eqn:Hrest; simpl; [|done].
    intros [= <-]. split; [exact Hy|]. by apply IH.
Qed.

Lemma get_is_Some (B : container) (Bs : list container) : ∀ arrays i,
  all_random_access (B :: Bs) arrays → 0 ≤ i < min_size B Bs arrays →
  is_Some (zip.get B Bs arrays i).
Proof.
  revert B. induction Bs as [|C Cs IH]; intros B arrays i [[_ Hsub] Hrest] Hi.
  - simpl in Hi. destruct (Hsub i Hi) as [y Hy]. simpl. rewrite Hy. by eexists.
  - change (min_size B (C :: Cs) arrays)
      with (Z.min (size arrays.1) (min_size C Cs arrays.2)) in Hi.
    destruct (Hsub i) as [y Hy]; [lia|].
    destruct (IH C arrays.2 i Hrest) as [rest Hget]; [lia|].
    change (zip.get B (C :: Cs) arrays i)
      with (y ← subscript arrays.1 i;
            rest ← zip.get C Cs arrays.2 i;
            Some (tuple_cat (make_tuple (F := value_type) y) rest)).
    rewrite Hy. simpl. rewrite Hget. by eexists.
Qed.

(** ** class zip *)

Section zip_facts.

Import zip.

Context {A : container} {As : list container}.
Implicit Types (σ : gmap positive (zip.t A As)) (this : positive).

Lemma zip_op_ne_iff (a b : Iterator.t) :
  Iterator.op_ne a b = true ↔
  Iterator.i_ a ≠ Iterator.i_ b ∨ Iterator.arrays_ a ≠ Iterator.arrays_ b.
Proof.
  unfold Iterator.op_ne.
  rewrite orb_true_iff, !negb_true_iff, Z.eqb_neq, Pos.eqb_neq. done.
Qed.

Lemma zip_op_ne_false_iff (a b : Iterator.t) :
  Iterator.op_ne a b = false ↔
  Iterator.i_ a = Iterator.i_ b ∧ Iterator.arrays_ a = Iterator.arrays_ b.
Proof.
  unfold Iterator.op_ne.
  rewrite orb_false_iff, !negb_false_iff, Z.eqb_eq, Pos.eqb_eq. done.
Qed.

Lemma zip_begin_Ok σ this z :
  σ !! this = Some z → begin this σ = Ok (Iterator.mk this 0, σ).
Proof. intros H. unfold begin. by rewrite H. Qed.

Lemma zip_end_Ok σ this z :
  σ !! this = Some z → end_ this σ = Ok (Iterator.mk this (max_ z), σ).
Proof. intros H. unfold end_. by rewrite H. Qed.

Lemma zip_begin_inv σ σ' this it :
  begin this σ = Ok (it, σ') →
  is_Some (σ !! this) ∧ it = Iterator.mk this 0 ∧ σ' = σ.
Proof.
  unfold begin. destruct (σ !! this) as [z|]; [|done].
  intros [= <- <-]. split; [by eexists|done].
Qed.

Lemma zip_end_inv σ σ' this it :
  end_ this σ = Ok (it, σ') →
  ∃ z, σ !! this = Some z ∧ it = Iterator.mk this (max_ z) ∧ σ' = σ.
Proof.
  unfold end_. destruct (σ !! this) as [z|]; [|done].
  intros [= <- <-]. by exists z.
Qed.

Lemma zip_op_deref_Ok σ this z i x :
  σ !! this = Some z → get A As (arrays_ z) i = Some x →
  op_deref (Iterator.mk this i) σ = Ok (x, σ).
Proof. intros Hz Hx. unfold op_deref. simpl. by rewrite Hz, Hx. Qed.

(** The loop from position [i] to position [i + n] over the instance at
    [this] runs [n] times, reads row [i + k] at its [k]-th iteration and
    leaves the store as it found it. *)
Lemma zip_for_loop_rows σ this z (n : nat) : ∀ (fuel : nat) (i : Z),
  σ !! this = Some z →
  0 ≤ i → i + Z.of_nat n ≤ SIZE_MAX → (n < fuel)%nat →
  (∀ j, i ≤ j < i + Z.of_nat n → is_Some (get A As (arrays_ z) j)) →
  ∃ out,
    for_loop fuel (Iterator.mk this i) (Iterator.mk this (i + Z.of_nat n)) σ
    = Ok (out, σ) ∧
    length out = n ∧
    ∀ (k : nat) x, out !! k = Some x →
                   get A As (arrays_ z) (i + Z.of_nat k) = Some x.
Proof.
  induction n as [|n IH]; intros fuel i Hz Hi Hn Hfuel Hrows.
  - destruct fuel as [|fuel]; [lia|]. exists []. simpl.
    rewrite (proj2 (zip_op_ne_false_iff _ _)) by (simpl; split; [lia|done]).
    split; [done|split; [done|]]. intros k x. by rewrite lookup_nil.
  - destruct fuel as [|fuel]; [lia|]. simpl.
    rewrite (proj2 (zip_op_ne_iff _ _)) by (left; simpl; lia).
    destruct (Hrows i) as [x Hx]; [lia|].
    unfold Iterator.op_incr. simpl. rewrite wrap_succ by lia.
    destruct (IH fuel (i + 1)) as (out & Hloop & Hlen & Hout); [done|lia..| |].
    { intros j Hj. apply Hrows. lia. }
    replace (i + 1 + Z.of_nat n) with (i + Z.of_nat (S n)) in Hloop by lia.
    exists (x :: out). split; [|split].
    + rewrite (method_bind_Ok _ _ σ x σ) by by eapply zip_op_deref_Ok.
      by rewrite (method_bind_Ok _ _ σ out σ).
    + simpl. by rewrite Hlen.
    + intros [|k] y; simpl.
      * intros [= <-]. by rewrite Z.add_0_r.
      * intros Hy.
        replace (i + Z.of_nat (S k)) with (i + 1 + Z.of_nat k) by lia.
        exact (Hout k y Hy).
Qed.

Lemma zip_iterate_rows σ this z (fuel : nat) :
  σ !! this = Some z →
  is_size_t (max_ z) → (Z.to_nat (max_ z) < fuel)%nat →
  (∀ j, 0 ≤ j < max_ z → is_Some (get A As (arrays_ z) j)) →
  ∃ out,
    iterate fuel this σ = Ok (out, σ) ∧
    Z.of_nat (length out) = max_ z ∧
    ∀ (k : nat) x, out !! k = Some x →
                   zipped_at (A :: As) (arrays_ z) (Z.of_nat k) x.
Proof.
  intros Hz [Hlo Hhi] Hfuel Hrows.
  destruct (zip_for_loop_rows σ this z (Z.to_nat (max_ z)) fuel 0)
    as (out & Hloop & Hlen & Hout); [done|lia..| |].
  { intros j Hj. apply Hrows. lia. }
  rewrite Z.add_0_l, Z2Nat.id in Hloop by done.
  exists out. split; [|split].
  - unfold iterate.
    rewrite (method_bind_Ok _ _ σ _ σ (zip_begin_Ok σ this z Hz)).
    by rewrite (method_bind_Ok _ _ σ _ σ (zip_end_Ok σ this z Hz)).
  - lia.
  - intros k x Hk. apply get_zipped_at. by rewrite <- (Hout k x Hk).
Qed.

Lemma zip_ctor_Ok σ this (args : array_t) :
  ctor this args σ = Ok ((), <[this := mk args (min_size A As args)]> σ).
Proof. reflexivity. Qed.

Lemma cursor_of_arrays_ σ this it :
  cursor_of σ this it → Iterator.arrays_ it = this ∧ is_Some (σ !! this).
Proof.
  induction 1 as [it σ' H|it σ' H|it _ IH].
  - apply zip_begin_inv in H as (? & -> & _). done.
  - apply zip_end_inv in H as (z & Hz & -> & _). split; [done|by eexists].
  - done.
Qed.

End zip_facts.

(** C2.  For [N >= 1] random-access containers, the loop over
    [zip(c_0, ..., c_{N-1})] completes (given a loop budget above the
    limit) and yields exactly [min(L_0, ..., L_{N-1})] tuples, the [i]-th
    being [(c_0[i], ..., c_{N-1}[i])] in declaration order; if some
    container is empty it yields nothing. *)
Theorem zip_yields_min_size_rows
    (A : container) (As : list container) (args : tuple carrier (A :: As))
    (this : positive) (σ : gmap positive (zip.t A As)) (fuel : nat) :
  all_random_access (A :: As) args →
  (Z.to_nat (min_size A As args) < fuel)%nat →
  ∃ out σ',
    zip.for_zip fuel this args σ = Ok (out, σ') ∧
    Z.of_nat (length out) = min_size A As args ∧
    Forall (λ L, Z.of_nat (length out) ≤ L) (sizes (A :: As) args) ∧
    Z.of_nat (length out) ∈ sizes (A :: As) args ∧
    (∀ (i : nat) x,
       out !! i = Some x → zipped_at (A :: As) args (Z.of_nat i) x) ∧
    (0 ∈ sizes (A :: As) args → out = []).
Proof.
  intros Hargs Hfuel.
  set (z := zip.mk args (min_size A As args)).
  destruct (zip_iterate_rows (<[this := z]> σ) this z fuel)
    as (out & Hiter & Hlen & Hrows).
  { apply lookup_insert_eq. }
  { by apply min_size_is_size_t. }
  { done. }
  { intros j Hj. by apply get_is_Some. }
  simpl in Hlen.
  exists out, (<[this := z]> σ). split_and!.
  - unfold zip.for_zip.
    by rewrite (method_bind_Ok _ _ σ () _ (zip_ctor_Ok σ this args)).
  - done.
  - rewrite Hlen. apply min_size_le.
  - rewrite Hlen. apply min_size_elem_of.
  - exact Hrows.
  - intros H0. pose proof (min_size_le A As args) as Hle.
    rewrite Forall_forall in Hle. specialize (Hle 0 H0).
    destruct out; [done|]. simpl in Hlen. lia.
Qed.

Lemma zip_yields_min_size_rows_witness :
  ∃ out σ',
    zip.for_zip (A := vector Z) (As := [vector bool])
      3 1%positive ([10; 20; 30], ([true; false], ())) ∅ = Ok (out, σ') ∧
    Z.of_nat (length out)
    = min_size (vector Z) [vector bool] ([10; 20; 30], ([true; false], ())) ∧
    Forall (λ L, Z.of_nat (length out) ≤ L)
      (sizes [vector Z; vector bool] ([10; 20; 30], ([true; false], ()))) ∧
    Z.of_nat (length out)
    ∈ sizes [vector Z; vector bool] ([10; 20; 30], ([true; false], ())) ∧
    (∀ (i : nat) x,
       out !! i = Some x →
       zipped_at [vector Z; vector bool]
         ([10; 20; 30], ([true; false], ())) (Z.of_nat i) x) ∧
    (0 ∈ sizes [vector Z; vector bool] ([10; 20; 30], ([true; false], ())) →
     out = []).
Proof.
  apply (zip_yields_min_size_rows (vector Z) [vector bool]
           ([10; 20; 30], ([true; false], ())) 1%positive ∅ 3).
  - split; [|split; [|exact I]]; apply vector_random_access; simpl;
      rewrite SIZE_MAX_eq; lia.
  - simpl. lia.
Defined.

Example zip_10_20_30_a_b :
  ∃ σ', zip.for_zip (A := vector Z) (As := [vector bool])
          3 1%positive ([10; 20; 30], ([true; false], ())) ∅
        = Ok ([(10, (true, ())); (20, (false, ()))], σ').
Proof. eexists. reflexivity. Qed.

Example zip_3_5_4 :
  ∃ σ', zip.for_zip (A := vector Z) (As := [vector Z; vector Z])
          4 1%positive ([1; 2; 3], ([1; 2; 3; 4; 5], ([1; 2; 3; 4], ()))) ∅
        = Ok ([(1, (1, (1, ()))); (2, (2, (2, ()))); (3, (3, (3, ())))], σ').
Proof. eexists. reflexivity. Qed.

Example zip_empty_1_2_3 :
  ∃ σ', zip.for_zip (A := vector Z) (As := [vector Z])
          1 1%positive ([], ([1; 2; 3], ())) ∅
        = Ok ([], σ').
Proof. eexists. reflexivity. Qed.

Lemma zip_iter_op_incr (a : positive) (i : Z) (k : nat) :
  0 ≤ i → i + Z.of_nat k ≤ SIZE_MAX →
  Nat.iter k zip.Iterator.op_incr (zip.Iterator.mk a i)
  = zip.Iterator.mk a (i + Z.of_nat k).
Proof.
  intros Hi. induction k as [|k IH]; intros Hk.
  - simpl. by rewrite Z.add_0_r.
  - simpl. rewrite IH by lia. unfold zip.Iterator.op_incr. simpl.
    rewrite wrap_succ by lia. f_equal. lia.
Qed.

(** C5.  Two [zip] cursors compare unequal exactly when their positions
    differ or they refer to different reference tuples.  [begin()] and
    [end()] of one instance refer to the same tuple, and so does the cursor
    after any number of advances: of the cursors the loop compares with
    [end()], the one after [k <= limit] advances is at position [k], and
    the first to compare equal is the one at [limit]. *)
Theorem zip_cursor_ne_iff_position_or_identity
    (A : container) (As : list container)
    (σ : gmap positive (zip.t A As)) (this : positive) (z : zip.t A As)
    (a b : zip.Iterator.t) :
  (zip.Iterator.op_ne a b = true ↔
   zip.Iterator.i_ a ≠ zip.Iterator.i_ b ∨
   zip.Iterator.arrays_ a ≠ zip.Iterator.arrays_ b) ∧
  (σ !! this = Some z → is_size_t (zip.max_ z) →
   ∃ first last,
     zip.begin this σ = Ok (first, σ) ∧
     zip.end_ this σ = Ok (last, σ) ∧
     zip.Iterator.arrays_ first = zip.Iterator.arrays_ last ∧
     zip.Iterator.i_ last = zip.max_ z ∧
     ∀ k : nat, Z.of_nat k ≤ zip.max_ z →
       let it := Nat.iter k zip.Iterator.op_incr first in
       zip.Iterator.i_ it = Z.of_nat k ∧
       zip.Iterator.arrays_ it = zip.Iterator.arrays_ last ∧
       (zip.Iterator.op_ne it last = false ↔ Z.of_nat k = zip.max_ z)).
Proof.
  split; [apply zip_op_ne_iff|].
  intros Hz [Hlo Hhi].
  exists (zip.Iterator.mk this 0), (zip.Iterator.mk this (zip.max_ z)).
  split_and!; [by eapply zip_begin_Ok|by eapply zip_end_Ok|done..|].
  intros k Hk. simpl.
  rewrite zip_iter_op_incr by lia. rewrite Z.add_0_l. simpl.
  split_and!; [done..|].
  rewrite zip_op_ne_false_iff. simpl. tauto.
Qed.

Lemma zip_cursor_ne_iff_position_or_identity_witness :
  let z := @zip.mk (vector Z) [vector bool]
             ([10; 20; 30], ([true; false], ())) 2 in
  let σ : gmap positive (zip.t (vector Z) [vector bool]) := {[ 1%positive := z ]} in
  ∃ first last,
    zip.begin 1%positive σ = Ok (first, σ) ∧
    zip.end_ 1%positive σ = Ok (last, σ) ∧
    zip.Iterator.arrays_ first = zip.Iterator.arrays_ last ∧
    zip.Iterator.i_ last = 2 ∧
    ∀ k : nat, Z.of_nat k ≤ 2 →
      let it := Nat.iter k zip.Iterator.op_incr first in
      zip.Iterator.i_ it = Z.of_nat k ∧
      zip.Iterator.arrays_ it = zip.Iterator.arrays_ last ∧
      (zip.Iterator.op_ne it last = false ↔ Z.of_nat k = 2).
Proof.
  intros z σ.
  apply (proj2 (zip_cursor_ne_iff_position_or_identity
                  (vector Z) [vector bool] σ 1%positive z
                  (zip.Iterator.mk 1%positive 0) (zip.Iterator.mk 1%positive 0))).
  - apply lookup_singleton_eq.
  - simpl. size_t.
Defined.

(** C9.  [begin()] and [end()] of a [zip] instance both refer to the
    reference tuple stored in that instance, advancing a cursor keeps the
    reference, and [begin() != end()] holds exactly when the limit is not
    zero. *)
Theorem zip_begin_end_share_identity
    (A : container) (As : list container)
    (σ : gmap positive (zip.t A As)) (this : positive) (z : zip.t A As) :
  σ !! this = Some z →
  ∃ first last,
    zip.begin this σ = Ok (first, σ) ∧
    zip.end_ this σ = Ok (last, σ) ∧
    zip.Iterator.arrays_ first = zip.addr_of_arrays_ this ∧
    zip.Iterator.arrays_ last = zip.addr_of_arrays_ this ∧
    (∀ it, zip.Iterator.arrays_ (zip.Iterator.op_incr it)
           = zip.Iterator.arrays_ it) ∧
    (zip.Iterator.op_ne first last = true ↔ zip.max_ z ≠ 0).
Proof.
  intros Hz.
  exists (zip.Iterator.mk this 0), (zip.Iterator.mk this (zip.max_ z)).
  split_and!; [by eapply zip_begin_Ok|by eapply zip_end_Ok|done..|].
  rewrite zip_op_ne_iff. simpl.
  split; [intros [H|H]; [lia|done] | intros H; left; lia].
Qed.

Lemma zip_begin_end_share_identity_witness :
  let z := @zip.mk (vector Z) [vector bool]
             ([10; 20; 30], ([true; false], ())) 2 in
  let σ : gmap positive (zip.t (vector Z) [vector bool]) := {[ 1%positive := z ]} in
  ∃ first last,
    zip.begin 1%positive σ = Ok (first, σ) ∧
    zip.end_ 1%positive σ = Ok (last, σ) ∧
    zip.Iterator.arrays_ first = zip.addr_of_arrays_ 1%positive ∧
    zip.Iterator.arrays_ last = zip.addr_of_arrays_ 1%positive ∧
    (∀ it, zip.Iterator.arrays_ (zip.Iterator.op_incr it)
           = zip.Iterator.arrays_ it) ∧
    (zip.Iterator.op_ne first last = true ↔ zip.max_ z ≠ 0).
Proof.
  intros z σ.
  apply (zip_begin_end_share_identity (vector Z) [vector bool] σ 1%positive z).
  apply lookup_singleton_eq.
Defined.

(** C10.  Cursors obtained from two distinct [zip] instances always
    compare unequal, whatever their positions and whatever the containers
    the instances were constructed over. *)
Theorem zip_cursors_of_distinct_instances_differ
    (A : container) (As : list container)
    (σ : gmap positive (zip.t A As)) (this1 this2 : positive)
    (c1 c2 : zip.Iterator.t) :
  this1 ≠ this2 →
  cursor_of σ this1 c1 → cursor_of σ this2 c2 →
  zip.Iterator.op_ne c1 c2 = true ∧ zip.Iterator.op_ne c2 c1 = true.
Proof.
  intros Hne [H1 _]%cursor_of_arrays_ [H2 _]%cursor_of_arrays_.
  split; apply zip_op_ne_iff; right; congruence.
Qed.

Lemma zip_cursors_of_distinct_instances_differ_witness :
  let args : tuple carrier [vector Z; vector bool] :=
    ([10; 20; 30], ([true; false], ())) in
  ∃ σ : gmap positive (zip.t (vector Z) [vector bool]),
    (_ ← zip.ctor 1%positive args; zip.ctor 2%positive args) ∅ = Ok ((), σ) ∧
    ∃ c1 c2,
      zip.begin 1%positive σ = Ok (c1, σ) ∧
      zip.begin 2%positive σ = Ok (c2, σ) ∧
      zip.Iterator.i_ c1 = zip.Iterator.i_ c2 ∧
      zip.Iterator.op_ne c1 c2 = true ∧ zip.Iterator.op_ne c2 c1 = true.
Proof.
  intros args.
  set (z := @zip.mk (vector Z) [vector bool] args 2).
  exists (<[2%positive := z]> (<[1%positive := z]> ∅)).
  split; [reflexivity|].
  assert (Hb1 : zip.begin 1%positive (<[2%positive := z]> (<[1%positive := z]> ∅))
                = Ok (zip.Iterator.mk 1 0, <[2%positive := z]> (<[1%positive := z]> ∅))).
  { apply (zip_begin_Ok _ _ z). rewrite lookup_insert_ne by done.
    apply lookup_insert_eq. }
  assert (Hb2 : zip.begin 2%positive (<[2%positive := z]> (<[1%positive := z]> ∅))
                = Ok (zip.Iterator.mk 2 0, <[2%positive := z]> (<[1%positive := z]> ∅))).
  { apply (zip_begin_Ok _ _ z). apply lookup_insert_eq. }
  exists (zip.Iterator.mk 1 0), (zip.Iterator.mk 2 0).
  split; [exact Hb1|split; [exact Hb2|split; [reflexivity|]]].
  apply (zip_cursors_of_distinct_instances_differ
           (vector Z) [vector bool] (<[2%positive := z]> (<[1%positive := z]> ∅))
           1%positive 2%positive).
  - discriminate.
  - exact (cursor_begin _ _ _ _ Hb1).
  - exact (cursor_begin _ _ _ _ Hb2).
Defined.

(** C6.  Two complete passes over one [range] instance, or over one [zip]
    instance, yield the same sequence twice and leave the instance (for
    [zip], the store) as it was; [begin()] and [end()] can be requested
    repeatedly, return the same cursors each time and change nothing. *)
Theorem passes_are_repeatable
    (r : range.t)
    (A : container) (As : list container) (args : tuple carrier (A :: As))
    (this : positive) (σ0 : gmap positive (zip.t A As)) (fuel : nat) :
  (range_valid r → (Z.to_nat (range.max_ r - range.i_ r) < fuel)%nat →
   ∃ out first last,
     range_two_passes fuel r = Ok ((out, out), r) ∧
     range_cursors_twice r = Ok (((first, last), (first, last)), r)) ∧
  (all_random_access (A :: As) args →
   (Z.to_nat (min_size A As args) < fuel)%nat →
   ∃ σ out first last,
     zip.ctor this args σ0 = Ok ((), σ) ∧
     zip_two_passes fuel this σ = Ok ((out, out), σ) ∧
     zip_cursors_twice this σ = Ok (((first, last), (first, last)), σ)).
Proof.
  split.
  - intros Hvalid Hfuel.
    pose proof (range_iterate_seqZ r fuel Hvalid Hfuel) as Hpass.
    eexists _, _, _. split; [|reflexivity].
    unfold range_two_passes.
    rewrite (method_bind_Ok _ _ r _ r Hpass).
    by rewrite (method_bind_Ok _ _ r _ r Hpass).
  - intros Hargs Hfuel.
    set (z := zip.mk args (min_size A As args)).
    assert (Hz : <[this := z]> σ0 !! this = Some z) by apply lookup_insert_eq.
    destruct (zip_iterate_rows (<[this := z]> σ0) this z fuel Hz)
      as (out & Hpass & _).
    { by apply min_size_is_size_t. }
    { done. }
    { intros j Hj. by apply get_is_Some. }
    exists (<[this := z]> σ0), out,
      (zip.Iterator.mk this 0), (zip.Iterator.mk this (zip.max_ z)).
    split_and!; [done| |].
    + unfold zip_two_passes.
      rewrite (method_bind_Ok _ _ _ _ _ Hpass).
      by rewrite (method_bind_Ok _ _ _ _ _ Hpass).
    + unfold zip_cursors_twice.
      rewrite (method_bind_Ok _ _ _ _ _ (zip_begin_Ok _ this z Hz)).
      rewrite (method_bind_Ok _ _ _ _ _ (zip_end_Ok _ this z Hz)).
      rewrite (method_bind_Ok _ _ _ _ _ (zip_begin_Ok _ this z Hz)).
      by rewrite (method_bind_Ok _ _ _ _ _ (zip_end_Ok _ this z Hz)).
Qed.

Lemma passes_are_repeatable_witness :
  (∃ out first last,
     range_two_passes 4 (range.mk 2 5) = Ok ((out, out), range.mk 2 5) ∧
     range_cursors_twice (range.mk 2 5)
     = Ok (((first, last), (first, last)), range.mk 2 5)) ∧
  (∃ σ out first last,
     zip.ctor (A := vector Z) (As := [vector bool])
       1%positive ([10; 20; 30], ([true; false], ())) ∅ = Ok ((), σ) ∧
     zip_two_passes 4 1%positive σ = Ok ((out, out), σ) ∧
     zip_cursors_twice 1%positive σ = Ok (((first, last), (first, last)), σ)).
Proof.
  destruct (passes_are_repeatable (range.mk 2 5) (vector Z) [vector bool]
              ([10; 20; 30], ([true; false], ())) 1%positive ∅ 4)
    as [Hrange Hzip].
  split.
  - apply Hrange.
    + unfold range_valid. simpl. split; [size_t|split; [size_t|lia]].
    + simpl. lia.
  - apply Hzip.
    + split; [|split; [|exact I]]; apply vector_random_access; simpl;
        rewrite SIZE_MAX_eq; lia.
    + simpl. lia.
Defined.

(** * Further properties of the code *)

(** ** Unsigned arithmetic *)

Lemma wrap_add_cases (i k : Z) :
  is_size_t i → 0 ≤ k < SIZE_MOD →
  wrap (i + k) = i + k ∧ i + k < SIZE_MOD ∨
  wrap (i + k) = i + k - SIZE_MOD ∧ SIZE_MOD ≤ i + k.
Proof.
  intros [Hlo Hhi] Hk. rewrite SIZE_MOD_eq in *.
  destruct (Z_lt_dec (i + k) (SIZE_MAX + 1)) as [Hlt|Hge].
  - left. split; [|done]. unfold wrap. rewrite SIZE_MOD_eq.
    apply Z.mod_small. lia.
  - right. split; [|lia]. unfold wrap. rewrite SIZE_MOD_eq.
    symmetry. apply (Z.mod_unique _ _ 1); lia.
Qed.

Lemma wrap_add_ne (i k : Z) :
  is_size_t i → 0 < k < SIZE_MOD → wrap (i + k) ≠ i.
Proof.
  intros Hi Hk. destruct (wrap_add_cases i k) as [[-> _]|[-> _]]; [done|lia|lia|lia].
Qed.

Lemma wrap_wrap_add_l (a b : Z) : wrap (wrap a + b) = wrap (a + b).
Proof. unfold wrap. apply Zplus_mod_idemp_l. Qed.

Lemma wrap_add_wrap_sub (i j : Z) : is_size_t j → wrap (i + wrap (j - i)) = j.
Proof.
  intros Hj. unfold wrap at 1 2. rewrite Zplus_mod_idemp_r.
  replace (i + (j - i)) with j by lia. by apply wrap_id.
Qed.

Lemma wrap_lt_SIZE_MOD (z : Z) : 0 ≤ wrap z < SIZE_MOD.
Proof. pose proof (wrap_is_size_t z) as [? ?]. rewrite SIZE_MOD_eq. lia. Qed.

(** ** The monads, inverted *)

Lemma method_bind_inv {S A B} (m : method S A) (f : A → method S B) s r :
  (m ≫= f) s = Ok r → ∃ a s', m s = Ok (a, s') ∧ f a s' = Ok r.
Proof.
  unfold mbind, method_bind. destruct (m s) as [[a s']| | |]; [|done..].
  intros H. by exists a, s'.
Qed.

(** ** class range, continued *)

(** The loop between two cursors at arbitrary positions: from [i] it
    reaches [wrap (i + n)] after [n] iterations, passing through
    [SIZE_MAX] and 0 if it has to. *)
Lemma range_for_loop_wraps (n : nat) : ∀ (fuel : nat) (i m m' : Z),
  is_size_t i → Z.of_nat n < SIZE_MOD → (n < fuel)%nat →
  range.for_loop fuel (range.Iterator.mk i m)
                      (range.Iterator.mk (wrap (i + Z.of_nat n)) m')
  = Ok ((λ k, wrap (i + k)) <$> seqZ 0 (Z.of_nat n)).
Proof.
  induction n as [|n IH]; intros fuel i m m' Hi Hn Hfuel.
  - destruct fuel as [|fuel]; [lia|]. simpl.
    rewrite range_op_ne_false; [done|]. simpl. rewrite Z.add_0_r. by rewrite wrap_id.
  - destruct fuel as [|fuel]; [lia|]. simpl.
    rewrite range_op_ne_true.
    2:{ simpl. intros Heq. symmetry in Heq. revert Heq. apply wrap_add_ne; [done|lia]. }
    unfold range.Iterator.op_incr, range.Iterator.op_deref. simpl.
    replace (wrap (i + Z.of_nat (S n)))
      with (wrap (wrap (i + 1) + Z.of_nat n))
      by (rewrite wrap_wrap_add_l; f_equal; lia).
    rewrite IH; [|apply wrap_is_size_t|lia..].
    rewrite (seqZ_cons 0 (Z.of_nat (S n))) by lia.
    rewrite fmap_cons. simpl.
    rewrite Z.add_0_r, (wrap_id i) by done. f_equal. f_equal.
    replace (Z.pred (Z.of_nat (S n))) with (Z.of_nat n) by lia.
    rewrite <- (fmap_add_seqZ 1 0). rewrite <- list_fmap_compose.
    apply list_fmap_ext. intros _ k _. simpl.
    rewrite wrap_wrap_add_l. f_equal. lia.
Qed.

(** X1.  [range(max)] never fails for an unsigned [max]: it is
    [range(0, max)], its [begin()] is the cursor [Iterator(max)] builds,
    and the loop over it yields [0, 1, ..., max - 1]. *)
Theorem range_ctor1_counts_from_zero (max : Z) (fuel : nat) :
  is_size_t max → (Z.to_nat max < fuel)%nat →
  ∃ r,
    range.ctor1 max = Ok r ∧
    range.begin r = Ok (range.Iterator.ctor1 max, r) ∧
    range.iterate fuel r = Ok (seqZ 0 max, r) ∧
    Z.of_nat (length (seqZ 0 max)) = max.
Proof.
  intros [Hlo Hhi] Hfuel. exists (range.mk 0 max). split_and!.
  - unfold range.ctor1. by apply range_ctor_Ok.
  - reflexivity.
  - pose proof (range_iterate_seqZ (range.mk 0 max) fuel) as Hpass.
    simpl in Hpass. rewrite Z.sub_0_r in Hpass. apply Hpass; [|done].
    unfold range_valid. simpl. split_and!; [size_t|done|done].
  - rewrite length_seqZ. lia.
Qed.

Lemma range_ctor1_counts_from_zero_witness :
  ∃ r,
    range.ctor1 3 = Ok r ∧
    range.begin r = Ok (range.Iterator.ctor1 3, r) ∧
    range.iterate 4 r = Ok (seqZ 0 3, r) ∧
    Z.of_nat (length (seqZ 0 3)) = 3.
Proof.
  apply (range_ctor1_counts_from_zero 3 4); [size_t|simpl; lia].
Defined.

(** X2.  The loop from a cursor at [i] to a cursor at [j] ends for all
    unsigned [i] and [j], whatever bounds the two cursors carry: it runs
    [(j - i) mod 2^64] times and yields [i, i + 1, ...] modulo [2^64].
    With [j < i] it passes through [SIZE_MAX] and 0, [2^64 - i + j]
    iterations in all. *)
Theorem range_loop_between_any_cursors (i j m m' : Z) (fuel : nat) :
  is_size_t i → is_size_t j → (Z.to_nat (wrap (j - i)) < fuel)%nat →
  range.for_loop fuel (range.Iterator.mk i m) (range.Iterator.mk j m')
  = Ok ((λ k, wrap (i + k)) <$> seqZ 0 (wrap (j - i))) ∧
  Z.of_nat (length ((λ k, wrap (i + k)) <$> seqZ 0 (wrap (j - i))))
  = wrap (j - i) ∧
  (i ≤ j → wrap (j - i) = j - i) ∧
  (j < i → wrap (j - i) = SIZE_MOD - i + j).
Proof.
  intros Hi Hj Hfuel. pose proof (wrap_lt_SIZE_MOD (j - i)) as Hn.
  split_and!.
  - pose proof (range_for_loop_wraps (Z.to_nat (wrap (j - i))) fuel i m m')
      as Hloop.
    rewrite Z2Nat.id in Hloop by lia. rewrite wrap_add_wrap_sub in Hloop by done.
    apply Hloop; [done|lia|done].
  - rewrite length_fmap, length_seqZ. lia.
  - intros Hle. apply wrap_id. unfold is_size_t in *. lia.
  - intros Hlt. unfold wrap. symmetry.
    apply (Z.mod_unique _ _ (-1)); unfold is_size_t in *;
      rewrite SIZE_MOD_eq in *; lia.
Qed.

Lemma range_loop_between_any_cursors_witness :
  range.for_loop 3 (range.Iterator.mk SIZE_MAX 7) (range.Iterator.mk 1 9)
  = Ok ((λ k, wrap (SIZE_MAX + k)) <$> seqZ 0 (wrap (1 - SIZE_MAX))) ∧
  Z.of_nat (length ((λ k, wrap (SIZE_MAX + k)) <$> seqZ 0 (wrap (1 - SIZE_MAX))))
  = wrap (1 - SIZE_MAX) ∧
  (SIZE_MAX ≤ 1 → wrap (1 - SIZE_MAX) = 1 - SIZE_MAX) ∧
  (1 < SIZE_MAX → wrap (1 - SIZE_MAX) = SIZE_MOD - SIZE_MAX + 1).
Proof.
  apply (range_loop_between_any_cursors SIZE_MAX 1 7 9 3); [size_t|size_t|].
  vm_compute. lia.
Defined.

Example range_loop_wraps_around :
  range.for_loop 3 (range.Iterator.mk SIZE_MAX 7) (range.Iterator.mk 1 9)
  = Ok [SIZE_MAX; 0].
Proof. reflexivity. Qed.

(** X3.  Loops over adjacent ranges compose: for unsigned [a <= b <= c],
    what [range(a, b)] yields followed by what [range(b, c)] yields is what
    [range(a, c)] yields. *)
Theorem range_adjacent_ranges_compose (a b c : Z) (fuel : nat) :
  is_size_t a → is_size_t c → a ≤ b → b ≤ c →
  (Z.to_nat (c - a) < fuel)%nat →
  ∃ out1 out2,
    range.for_range fuel a b = Ok (out1, range.mk a b) ∧
    range.for_range fuel b c = Ok (out2, range.mk b c) ∧
    range.for_range fuel a c = Ok (out1 ++ out2, range.mk a c).
Proof.
  intros [Ha _] [_ Hc] Hab Hbc Hfuel.
  assert (Hrun : ∀ x y, a ≤ x → x ≤ y → y ≤ c →
            range.for_range fuel x y = Ok (seqZ x (y - x), range.mk x y)).
  { intros x y Hx Hxy Hy. unfold range.for_range.
    rewrite range_ctor_Ok by done. simpl.
    apply (range_iterate_seqZ (range.mk x y)); [|simpl; lia].
    unfold range_valid, is_size_t. simpl. lia. }
  exists (seqZ a (b - a)), (seqZ b (c - b)). split_and!.
  - apply Hrun; lia.
  - apply Hrun; lia.
  - rewrite Hrun by lia. do 2 f_equal.
    replace (c - a) with ((b - a) + (c - b)) by lia.
    rewrite seqZ_app by lia. do 2 f_equal. lia.
Qed.

Lemma range_adjacent_ranges_compose_witness :
  ∃ out1 out2,
    range.for_range 6 2 4 = Ok (out1, range.mk 2 4) ∧
    range.for_range 6 4 7 = Ok (out2, range.mk 4 7) ∧
    range.for_range 6 2 7 = Ok (out1 ++ out2, range.mk 2 7).
Proof.
  apply (range_adjacent_ranges_compose 2 4 7 6);
    [size_t|size_t|lia|lia|simpl; lia].
Defined.

(** X4.  On [range] cursors, "not [!=]" is an equivalence relation: a
    cursor is never unequal to itself, the comparison is symmetric, and
    two cursors both equal to a third are equal. *)
Theorem range_cursor_equality_is_equivalence (a b c : range.Iterator.t) :
  range.Iterator.op_ne a a = false ∧
  range.Iterator.op_ne a b = range.Iterator.op_ne b a ∧
  (range.Iterator.op_ne a b = false → range.Iterator.op_ne b c = false →
   range.Iterator.op_ne a c = false).
Proof.
  unfold range.Iterator.op_ne. split_and!.
  - by rewrite Z.eqb_refl.
  - by rewrite Z.eqb_sym.
  - rewrite !negb_false_iff, !Z.eqb_eq. congruence.
Qed.

Lemma range_cursor_equality_is_equivalence_witness :
  range.Iterator.op_ne (range.Iterator.mk 3 5) (range.Iterator.mk 3 5) = false ∧
  range.Iterator.op_ne (range.Iterator.mk 3 5) (range.Iterator.mk 3 9)
  = range.Iterator.op_ne (range.Iterator.mk 3 9) (range.Iterator.mk 3 5) ∧
  range.Iterator.op_ne (range.Iterator.mk 3 5) (range.Iterator.mk 3 3) = false.
Proof.
  destruct (range_cursor_equality_is_equivalence
              (range.Iterator.mk 3 5) (range.Iterator.mk 3 9)
              (range.Iterator.mk 3 3)) as (Hrefl & Hsym & Htrans).
  split; [exact Hrefl|split; [exact Hsym|]].
  apply Htrans; reflexivity.
Defined.

(** ** class zip, continued *)

Lemma vector_exact_bounds {X} (v : list X) : exact_bounds (A := vector X) v.
Proof.
  intros i. simpl. destruct (Z.leb_spec 0 i) as [Hi|Hi].
  - rewrite lookup_lt_is_Some. lia.
  - split; [intros [x Hx]; discriminate|lia].
Qed.

Lemma get_is_Some_iff (B : container) (Bs : list container) : ∀ arrays i,
  all_exact_bounds (B :: Bs) arrays →
  is_Some (zip.get B Bs arrays i) ↔
  Forall (λ L, 0 ≤ i < L) (sizes (B :: Bs) arrays).
Proof.
  revert B. induction Bs as [|C Cs IH]; intros B arrays i [Hhd Htl].
  - simpl. rewrite Forall_singleton, <- (Hhd i).
    destruct (subscript arrays.1 i) as [x|]; simpl.
    + split; intros _; by eexists.
    + split; intros [? ?]; discriminate.
  - change (sizes (B :: C :: Cs) arrays)
      with (size arrays.1 :: sizes (C :: Cs) arrays.2).
    change (zip.get B (C :: Cs) arrays i)
      with (x ← subscript arrays.1 i;
            rest ← zip.get C Cs arrays.2 i;
            Some (tuple_cat (make_tuple (F := value_type) x) rest)).
    rewrite Forall_cons, <- (IH C arrays.2 i Htl), <- (Hhd i).
    destruct (subscript arrays.1 i) as [x|]; simpl.
    + destruct (zip.get C Cs arrays.2 i) as [rest|]; simpl.
      * split; [intros _; split; by eexists|intros _; by eexists].
      * split; [intros [? ?]; discriminate|intros [_ [? ?]]; discriminate].
    + split; [intros [? ?]; discriminate|intros [[? ?] _]; discriminate].
Qed.

Lemma zip_for_loop_frame {A As} (fuel : nat) :
  ∀ (it last : zip.Iterator.t) (σ1 σ1' σ2 : gmap positive (zip.t A As)) out,
  σ1 !! zip.Iterator.arrays_ it = σ2 !! zip.Iterator.arrays_ it →
  zip.for_loop fuel it last σ1 = Ok (out, σ1') →
  σ1' = σ1 ∧ zip.for_loop fuel it last σ2 = Ok (out, σ2).
Proof.
  induction fuel as [|fuel IH]; intros it last σ1 σ1' σ2 out Hsame; [done|].
  simpl. destruct (zip.Iterator.op_ne it last).
  - intros (x & s & Hderef & Hrest)%method_bind_inv.
    apply method_bind_inv in Hrest as (xs & s' & Hloop & Hret).
    injection Hret as <- <-.
    unfold zip.op_deref in Hderef |- *.
    assert (s = σ1 ∧ zip.op_deref it σ2 = Ok (x, σ2)) as [-> Hderef2].
    { unfold zip.op_deref. rewrite <- Hsame.
      destruct (σ1 !! zip.Iterator.arrays_ it) as [z|]; [|done].
      destruct (zip.get A As (zip.arrays_ z) (zip.Iterator.i_ it)); [|done].
      by injection Hderef as <- <-. }
    destruct (IH (zip.Iterator.op_incr it) last σ1 s' σ2 xs Hsame Hloop)
      as [-> Hloop2].
    split; [done|].
    rewrite (method_bind_Ok _ _ σ2 x σ2 Hderef2).
    by rewrite (method_bind_Ok _ _ σ2 xs σ2 Hloop2).
  - intros [= <- <-]. done.
Qed.

(** X5.  On [zip] cursors too, "not [!=]" is an equivalence relation. *)
Theorem zip_cursor_equality_is_equivalence (a b c : zip.Iterator.t) :
  zip.Iterator.op_ne a a = false ∧
  zip.Iterator.op_ne a b = zip.Iterator.op_ne b a ∧
  (zip.Iterator.op_ne a b = false → zip.Iterator.op_ne b c = false →
   zip.Iterator.op_ne a c = false).
Proof.
  split_and!.
  - by apply zip_op_ne_false_iff.
  - unfold zip.Iterator.op_ne. by rewrite Z.eqb_sym, Pos.eqb_sym.
  - rewrite !zip_op_ne_false_iff. intros [-> ->] [-> ->]. done.
Qed.

Lemma zip_cursor_equality_is_equivalence_witness :
  zip.Iterator.op_ne (zip.Iterator.mk 1 2) (zip.Iterator.mk 1 2) = false ∧
  zip.Iterator.op_ne (zip.Iterator.mk 1 2) (zip.Iterator.mk 3 2)
  = zip.Iterator.op_ne (zip.Iterator.mk 3 2) (zip.Iterator.mk 1 2) ∧
  zip.Iterator.op_ne (zip.Iterator.mk 1 2) (zip.Iterator.mk 1 2) = false.
Proof.
  destruct (zip_cursor_equality_is_equivalence
              (zip.Iterator.mk 1 2) (zip.Iterator.mk 3 2)
              (zip.Iterator.mk 1 2)) as (Hrefl & Hsym & _).
  destruct (zip_cursor_equality_is_equivalence
              (zip.Iterator.mk 1 2) (zip.Iterator.mk 1 2)
              (zip.Iterator.mk 1 2)) as (_ & _ & Htrans).
  split; [exact Hrefl|split; [exact Hsym|]].
  apply Htrans; reflexivity.
Defined.

(** X6.  [get<0>] reads every container at the one index [i_] and checks
    nothing: over containers that answer exactly the indices below their
    length, it produces a tuple if and only if the index is below the
    length of every container. *)
Theorem zip_get_defined_iff_index_in_every_container
    (A : container) (As : list container) (args : tuple carrier (A :: As))
    (i : Z) :
  all_exact_bounds (A :: As) args →
  (is_Some (zip.get A As args i) ↔
   Forall (λ L, 0 ≤ i < L) (sizes (A :: As) args)) ∧
  (∀ x, zip.get A As args i = Some x → zipped_at (A :: As) args i x).
Proof.
  intros Hargs. split; [by apply get_is_Some_iff|apply get_zipped_at].
Qed.

Lemma zip_get_defined_iff_index_in_every_container_witness :
  (is_Some (zip.get (vector Z) [vector bool]
              ([10; 20; 30], ([true; false], ())) 2) ↔
   Forall (λ L, 0 ≤ 2 < L)
     (sizes [vector Z; vector bool] ([10; 20; 30], ([true; false], ())))) ∧
  (∀ x, zip.get (vector Z) [vector bool]
          ([10; 20; 30], ([true; false], ())) 2 = Some x →
        zipped_at [vector Z; vector bool]
          ([10; 20; 30], ([true; false], ())) 2 x).
Proof.
  apply (zip_get_defined_iff_index_in_every_container
           (vector Z) [vector bool] ([10; 20; 30], ([true; false], ())) 2).
  split; [|split; [|exact I]]; apply vector_exact_bounds.
Defined.



Lemma zip_for_zip_rows {A As} (args : tuple carrier (A :: As))
    (this : positive) (σ : gmap positive (zip.t A As)) (fuel : nat) :
  all_random_access (A :: As) args →
  (Z.to_nat (min_size A As args) < fuel)%nat →
  ∃ out σ',
    zip.for_zip fuel this args σ = Ok (out, σ') ∧
    Z.of_nat (length out) = min_size A As args ∧
    ∀ (k : nat) x,
      out !! k = Some x → zipped_at (A :: As) args (Z.of_nat k) x.
Proof.
  intros Hargs Hfuel.
  set (z := zip.mk args (min_size A As args)).
  destruct (zip_iterate_rows (<[this := z]> σ) this z fuel)
    as (out & Hiter & Hlen & Hrows).
  { apply lookup_insert_eq. }
  { by apply min_size_is_size_t. }
  { done. }
  { intros j Hj. by apply get_is_Some. }
  exists out, (<[this := z]> σ). split_and!; [|done|exact Hrows].
  unfold zip.for_zip.
  by rewrite (method_bind_Ok _ _ σ () _ (zip_ctor_Ok σ this args)).
Qed.

Lemma vector_subscript_of_nat {X} (v : list X) (k : nat) :
  subscript (c := vector X) v (Z.of_nat k) = v !! k.
Proof.
  simpl. destruct (Z.leb_spec 0 (Z.of_nat k)); [|lia]. by rewrite Nat2Z.id.
Qed.

(** X8.  Over one vector, [zip(v)] yields every element of [v], in order,
    each as a one-component tuple. *)
Theorem zip_of_one_vector {X : Type} (v : list X)
    (this : positive) (σ : gmap positive (zip.t (vector X) [])) (fuel : nat) :
  Z.of_nat (length v) ≤ SIZE_MAX → (length v < fuel)%nat →
  ∃ σ',
    zip.for_zip (A := vector X) (As := []) fuel this (v, ()) σ
    = Ok ((λ x, (x, ())) <$> v, σ').
Proof.
  intros Hv Hfuel.
  destruct (zip_for_zip_rows (A := vector X) (As := []) (v, ()) this σ fuel)
    as (out & σ' & Hrun & Hlen & Hrows).
  { split; [by apply vector_random_access|exact I]. }
  { simpl. lia. }
  exists σ'. rewrite Hrun. do 2 f_equal.
  simpl in Hlen.
  apply (list_eq_same_length _ _ (length v)); [by rewrite length_fmap|lia|].
  intros k x y Hk Hx Hy.
  destruct (Hrows k x Hx) as [Hfst _].
  assert (Hv' : v !! k = Some x.1)
    by (rewrite <- vector_subscript_of_nat; exact Hfst).
  apply list_lookup_fmap_Some in Hy as (a & -> & Ha).
  destruct x as [x []]. simpl in Hv'. f_equal. congruence.
Qed.

Lemma zip_of_one_vector_witness :
  ∃ σ',
    zip.for_zip (A := vector Z) (As := []) 3 1%positive ([4; 5], ()) ∅
    = Ok ((λ x, (x, ())) <$> [4; 5], σ').
Proof.
  apply (zip_of_one_vector [4; 5] 1%positive ∅ 3).
  - simpl. rewrite SIZE_MAX_eq. lia.
  - simpl. lia.
Defined.

(** X9.  Over two vectors, [zip(v, w)] yields the pairs
    [(v[0], w[0]), (v[1], w[1]), ...] up to the end of the shorter vector:
    the list [zip_with] builds from [v] and [w]. *)
Theorem zip_of_two_vectors {X Y : Type} (v : list X) (w : list Y)
    (this : positive) (σ : gmap positive (zip.t (vector X) [vector Y]))
    (fuel : nat) :
  Z.of_nat (length v) ≤ SIZE_MAX → Z.of_nat (length w) ≤ SIZE_MAX →
  (length v `min` length w < fuel)%nat →
  ∃ σ',
    zip.for_zip (A := vector X) (As := [vector Y]) fuel this (v, (w, ())) σ
    = Ok (zip_with (λ x y, (x, (y, ()))) v w, σ').
Proof.
  intros Hv Hw Hfuel.
  destruct (zip_for_zip_rows (A := vector X) (As := [vector Y])
              (v, (w, ())) this σ fuel)
    as (out & σ' & Hrun & Hlen & Hrows).
  { split; [|split; [|exact I]]; by apply vector_random_access. }
  { simpl. lia. }
  exists σ'. rewrite Hrun. do 2 f_equal.
  simpl in Hlen.
  apply (list_eq_same_length _ _ (length v `min` length w)%nat);
    [by rewrite length_zip_with|lia|].
  intros k x y Hk Hx Hy.
  destruct (Hrows k x Hx) as (Hfst & Hsnd & _).
  assert (Hv' : v !! k = Some x.1)
    by (rewrite <- vector_subscript_of_nat; exact Hfst).
  assert (Hw' : w !! k = Some x.2.1)
    by (rewrite <- vector_subscript_of_nat; exact Hsnd).
  apply lookup_zip_with_Some in Hy as (a & b & -> & Ha & Hb).
  destruct x as [x1 [x2 []]]. simpl in Hv', Hw'.
  f_equal; [|f_equal]; congruence.
Qed.

Lemma zip_of_two_vectors_witness :
  ∃ σ',
    zip.for_zip (A := vector Z) (As := [vector bool])
      3 1%positive ([10; 20; 30], ([true; false], ())) ∅
    = Ok (zip_with (λ x y, (x, (y, ()))) [10; 20; 30] [true; false], σ').
Proof.
  apply (zip_of_two_vectors [10; 20; 30] [true; false] 1%positive ∅ 3).
  - simpl. rewrite SIZE_MAX_eq. lia.
  - simpl. rewrite SIZE_MAX_eq. lia.
  - simpl. lia.
Defined.

(** X10.  A loop that advances a cursor of one [zip] towards a cursor of
    another never completes: the two always compare unequal, so the loop
    goes on until a read leaves a container (or, in the model, until its
    budget is spent). *)
Theorem zip_loop_across_instances_never_completes
    (A : container) (As : list container) (fuel : nat)
    (it last : zip.Iterator.t) (σ : gmap positive (zip.t A As)) :
  zip.Iterator.arrays_ it ≠ zip.Iterator.arrays_ last →
  zip.for_loop fuel it last σ = Undefined ∨
  zip.for_loop fuel it last σ = OutOfFuel.
Proof.
  intros Hne. revert it Hne. induction fuel as [|fuel IH]; intros it Hne.
  - by right.
  - simpl. rewrite (proj2 (zip_op_ne_iff it last)) by by right.
    unfold mbind, method_bind, zip.op_deref.
    destruct (σ !! zip.Iterator.arrays_ it) as [z|]; [|by left].
    destruct (zip.get A As (zip.arrays_ z) (zip.Iterator.i_ it)) as [x|];
      [|by left].
    destruct (IH (zip.Iterator.op_incr it) Hne) as [Hrest|Hrest];
      unfold mbind, method_bind in Hrest; rewrite Hrest; [by left|by right].
Qed.

Lemma zip_loop_across_instances_never_completes_witness :
  let z := @zip.mk (vector Z) [vector bool]
             ([10; 20; 30], ([true; false], ())) 2 in
  let σ : gmap positive (zip.t (vector Z) [vector bool]) :=
    <[2%positive := z]> (<[1%positive := z]> ∅) in
  zip.for_loop 5 (zip.Iterator.mk 1 0) (zip.Iterator.mk 2 2) σ = Undefined ∨
  zip.for_loop 5 (zip.Iterator.mk 1 0) (zip.Iterator.mk 2 2) σ = OutOfFuel.
Proof.
  intros z σ.
  apply (zip_loop_across_instances_never_completes (vector Z) [vector bool] 5
           (zip.Iterator.mk 1 0) (zip.Iterator.mk 2 2) σ).
  simpl. discriminate.
Defined.

Example zip_loop_across_instances_runs_off_the_end :
  let z := @zip.mk (vector Z) [vector bool]
             ([10; 20; 30], ([true; false], ())) 2 in
  zip.for_loop 5 (zip.Iterator.mk 1 0) (zip.Iterator.mk 2 2)
    (<[2%positive := z]> (<[1%positive := z]> ∅)) = Undefined.
Proof. reflexivity. Qed.

(** X11.  A pass that completes returns the store it started from, and
    constructing another [zip] elsewhere does not change what a pass over
    an existing instance yields. *)
Theorem zip_pass_unaffected_by_other_instances
    (A : container) (As : list container)
    (σ σ' : gmap positive (zip.t A As)) (this other : positive)
    (args : tuple carrier (A :: As)) (fuel : nat)
    (out : list (@zip.tuple_t A As)) :
  this ≠ other →
  zip.iterate fuel this σ = Ok (out, σ') →
  σ' = σ ∧
  ∃ σ2, zip.ctor other args σ = Ok ((), σ2) ∧
        zip.iterate fuel this σ2 = Ok (out, σ2).
Proof.
  intros Hne Hpass.
  unfold zip.iterate in Hpass.
  apply method_bind_inv in Hpass as (it & s1 & Hbegin & Hpass).
  apply method_bind_inv in Hpass as (last & s2 & Hend & Hloop).
  apply zip_begin_inv in Hbegin as (_ & -> & ->).
  apply zip_end_inv in Hend as (z & Hz & -> & ->).
  set (σ2 := <[other := zip.mk args (min_size A As args)]> σ).
  assert (Hz2 : σ2 !! this = Some z).
  { unfold σ2. by rewrite lookup_insert_ne. }
  destruct (zip_for_loop_frame fuel
              (zip.Iterator.mk this 0) (zip.Iterator.mk this (zip.max_ z))
              σ σ' σ2 out) as [-> Hloop2]; [|exact Hloop|].
  { simpl. by rewrite Hz, Hz2. }
  split; [done|]. exists σ2. split; [done|].
  unfold zip.iterate.
  rewrite (method_bind_Ok _ _ _ _ _ (zip_begin_Ok σ2 this z Hz2)).
  by rewrite (method_bind_Ok _ _ _ _ _ (zip_end_Ok σ2 this z Hz2)).
Qed.

Lemma zip_pass_unaffected_by_other_instances_witness :
  let z := @zip.mk (vector Z) [vector bool]
             ([10; 20; 30], ([true; false], ())) 2 in
  let σ : gmap positive (zip.t (vector Z) [vector bool]) :=
    <[1%positive := z]> ∅ in
  σ = σ ∧
  ∃ σ2, zip.ctor (A := vector Z) (As := [vector bool])
          2%positive ([7], ([], ())) σ = Ok ((), σ2) ∧
        zip.iterate 3 1%positive σ2
        = Ok ([(10, (true, ())); (20, (false, ()))], σ2).
Proof.
  intros z σ.
  apply (zip_pass_unaffected_by_other_instances (vector Z) [vector bool]
           σ σ 1%positive 2%positive ([7], ([], ())) 3
           [(10, (true, ())); (20, (false, ()))]).
  - discriminate.
  - reflexivity.
Defined.

(** X12.  Advancing a [zip] cursor keeps its reference and counts modulo
    [2^64]: from a position below [SIZE_MAX] it moves one up, from
    [SIZE_MAX] it goes to 0; the new position is an unsigned value again. *)
Theorem zip_incr_keeps_reference_and_wraps (it : zip.Iterator.t) :
  is_size_t (zip.Iterator.i_ it) →
  zip.Iterator.arrays_ (zip.Iterator.op_incr it) = zip.Iterator.arrays_ it ∧
  is_size_t (zip.Iterator.i_ (zip.Iterator.op_incr it)) ∧
  (zip.Iterator.i_ it < SIZE_MAX →
   zip.Iterator.i_ (zip.Iterator.op_incr it) = zip.Iterator.i_ it + 1) ∧
  (zip.Iterator.i_ it = SIZE_MAX →
   zip.Iterator.i_ (zip.Iterator.op_incr it) = 0).
Proof.
  intros [Hlo Hhi]. split_and!.
  - done.
  - apply wrap_is_size_t.
  - intros Hlt. simpl. apply wrap_succ. lia.
  - intros Heq. simpl. rewrite Heq. apply wrap_SIZE_MAX.
Qed.

Lemma zip_incr_keeps_reference_and_wraps_witness :
  zip.Iterator.arrays_ (zip.Iterator.op_incr (zip.Iterator.mk 1 SIZE_MAX)) = 1%positive ∧
  is_size_t (zip.Iterator.i_ (zip.Iterator.op_incr (zip.Iterator.mk 1 SIZE_MAX))) ∧
  zip.Iterator.i_ (zip.Iterator.op_incr (zip.Iterator.mk 1 SIZE_MAX)) = 0.
Proof.
  destruct (zip_incr_keeps_reference_and_wraps (zip.Iterator.mk 1 SIZE_MAX))
    as (Href & Hrange & _ & Hwrap).
  - simpl. size_t.
  - split; [exact Href|split; [exact Hrange|]]. apply Hwrap. reflexivity.
Defined.
